(** * Lubbock gallery: the carousel layout of [Gallery.tsx] and the page shell

    A shallow embedding of the arithmetic and the event handling of
    [src/components/canvas/Gallery.tsx] ([Scene], [Cards], [ActiveCard]) and
    of the asynchronous [Page] component, with the properties the
    specification states about them.

    Conventions.
    - Array lengths and the "points" of the group layout are integers; they
      are modelled in [Z] (the source computes [length - 1], which is [-1]
      for an empty set).
    - Angles are JavaScript numbers.  [Binary64] models them as they are:
      IEEE 754 double precision floats, every operation rounded.  [JSNum]
      is the coarser view used for what does not depend on rounding (which
      values are NaN, infinite, finite, and their bounds): a real number,
      an infinity or NaN, finite values being exact reals.
    - A JavaScript exception (reading a field of [undefined]) is [None]. *)

From Stdlib Require Import ZArith Reals Lra Lia List String.
From Stdlib Require Import PrimFloat FloatOps SpecFloat Uint63.
From stdpp Require Import base option list.
Import ListNotations.

Local Open Scope Z_scope.

(** ** Data model ([@/core/types], as the components use it) *)

Module Types.

(** One resolution of a photo: the components read [url]. *)
Record Variant := mkVariant {
  url : string;
  width : Z;
  height : Z
}.

(** [photo.title], [photo.small.url], [photo.medium.url]. *)
Record Photo := mkPhoto {
  title : string;
  small : Variant;
  medium : Variant
}.

(** [photoSet.id], [photoSet.title], [photoSet.photos]. *)
Record PhotoSet := mkPhotoSet {
  id : string;
  set_title : string;
  photos : list Photo
}.

End Types.
Import Types.

(** ** JavaScript arrays read by index *)

(** [arr[i]] for an integer-valued number [i]: [undefined] (here [None])
    when [i] is negative or past the end. *)
Definition js_get {A : Type} (arr : list A) (i : Z) : option A :=
  if i <? 0 then None else arr !! Z.to_nat i.

(** [arr.length] *)
Definition js_length {A : Type} (arr : list A) : Z := Z.of_nat (length arr).

(** [arr.reduce(f, init)] where the callback also receives the index and may
    throw: the first exception aborts the reduction. *)
Fixpoint reduce_from {A B : Type} (f : B -> A -> Z -> option B)
    (arr : list A) (index : Z) (acc : B) : option B :=
  match arr with
  | [] => Some acc
  | x :: rest => acc' ← f acc x index; reduce_from f rest (index + 1) acc'
  end.

Definition reduce {A B : Type} (f : B -> A -> Z -> option B)
    (arr : list A) (init : B) : option B :=
  reduce_from f arr 0 init.

(** [arr.map(f)] where the callback receives the index and may throw. *)
Fixpoint map_from {A B : Type} (f : A -> Z -> option B)
    (arr : list A) (index : Z) : option (list B) :=
  match arr with
  | [] => Some []
  | x :: rest =>
      y ← f x index; ys ← map_from f rest (index + 1); Some (y :: ys)
  end.

Definition js_map {A B : Type} (f : A -> Z -> option B) (arr : list A)
    : option (list B) :=
  map_from f arr 0.

(** [Array.from({ length: n }, (_, i) => f(i))] *)
Definition array_from {B : Type} (n : nat) (f : Z -> B) : list B :=
  map (fun i : nat => f (Z.of_nat i)) (seq 0 n).

(** ** The group layout of [Scene] *)

Module Layout.

Record Group := mkGroup {
  start : Z;
  len : Z;
  end_ : Z
}.

Definition gapBetweenGroups : Z := 2.

(** The callback passed to [photoSets.reduce].  [groups[index - 1].start]
    throws when [groups[index - 1]] is [undefined]. *)
Definition groups_step (groups : list Group) (set : PhotoSet) (index : Z)
    : option (list Group) :=
  let len := js_length (photos set) - 1 in
  start ← (if index =? 0 then Some 0
           else prev ← js_get groups (index - 1);
                Some (start prev + len + gapBetweenGroups));
  let end_ := start + len in
  Some (groups ++ [mkGroup start len end_]).

Definition groups (photoSets : list PhotoSet) : option (list Group) :=
  reduce groups_step photoSets [].

(** The same layout by direct recursion on the sets, [prev] being the group
    built just before ([None] at index 0).  [groups_layout] below shows
    that [groups] computes it. *)
Fixpoint layout (prev : option Group) (photoSets : list PhotoSet)
    : list Group :=
  match photoSets with
  | [] => []
  | set :: rest =>
      let len := js_length (photos set) - 1 in
      let start :=
        match prev with
        | None => 0
        | Some p => start p + len + gapBetweenGroups
        end in
      let g := mkGroup start len (start + len) in
      g :: layout (Some g) rest
  end.

(** [groups[groups.length - 1].end]: throws when the array is empty. *)
Definition total_of (gs : list Group) : option Z :=
  last_group ← js_get gs (js_length gs - 1);
  Some (end_ last_group).

Definition total (photoSets : list PhotoSet) : option Z :=
  gs ← groups photoSets; total_of gs.

End Layout.

(** ** JavaScript numbers up to rounding

    The view of a number that keeps what kind of value it is (NaN, an
    infinity, or finite with a real value) and forgets rounding and
    overflow.  It serves the properties on which values are NaN, infinite
    or finite and on their bounds; the exact doubles are in [Binary64]. *)

Module JSNumber.

Inductive JSNum :=
| Fin (r : R)
| PosInf
| NegInf
| NaN.

Definition is_finite (x : JSNum) : bool :=
  match x with Fin _ => true | _ => false end.

Inductive Sign := Negative | Zero | Positive.

Definition sign (r : R) : Sign :=
  match total_order_T r 0 with
  | inleft (left _) => Negative
  | inleft (right _) => Zero
  | inright _ => Positive
  end.

(** An integer-valued number, such as an array length or an index. *)
Definition of_Z (z : Z) : JSNum := Fin (IZR z).

Definition jadd (x y : JSNum) : JSNum :=
  match x, y with
  | Fin a, Fin b => Fin (a + b)
  | NaN, _ | _, NaN => NaN
  | PosInf, NegInf | NegInf, PosInf => NaN
  | PosInf, _ | _, PosInf => PosInf
  | NegInf, _ | _, NegInf => NegInf
  end.

(** The infinity with the sign of [s]; NaN for zero times infinity. *)
Definition signed_inf (s : Sign) : JSNum :=
  match s with Negative => NegInf | Zero => NaN | Positive => PosInf end.

Definition flip (s : Sign) : Sign :=
  match s with Negative => Positive | Zero => Zero | Positive => Negative end.

Definition jmul (x y : JSNum) : JSNum :=
  match x, y with
  | Fin a, Fin b => Fin (a * b)
  | NaN, _ | _, NaN => NaN
  | Fin a, PosInf | PosInf, Fin a => signed_inf (sign a)
  | Fin a, NegInf | NegInf, Fin a => signed_inf (flip (sign a))
  | PosInf, PosInf | NegInf, NegInf => PosInf
  | PosInf, NegInf | NegInf, PosInf => NegInf
  end.

(** Division.  A zero divisor is the positive zero (the divisors of this
    program are array lengths and sums of them): [a / 0] is an infinity
    with the sign of [a], and [0 / 0] is NaN. *)
Definition jdiv (x y : JSNum) : JSNum :=
  match x, y with
  | NaN, _ | _, NaN => NaN
  | Fin a, Fin b =>
      match sign b with
      | Zero => signed_inf (sign a)
      | _ => Fin (a / b)
      end
  | Fin _, (PosInf | NegInf) => Fin 0
  | PosInf, Fin b =>
      match sign b with Negative => NegInf | _ => PosInf end
  | NegInf, Fin b =>
      match sign b with Negative => PosInf | _ => NegInf end
  | (PosInf | NegInf), (PosInf | NegInf) => NaN
  end.

(** [Math.sin] and [Math.cos]: NaN outside the finite numbers. *)
Definition jsin (x : JSNum) : JSNum :=
  match x with Fin a => Fin (sin a) | _ => NaN end.

Definition jcos (x : JSNum) : JSNum :=
  match x with Fin a => Fin (cos a) | _ => NaN end.

Definition Math_PI : JSNum := Fin PI.

End JSNumber.
Import JSNumber.

(** ** The carousel: what [Scene] hands to [Cards], and the cards of a set *)

Module Carousel.
Import Layout.

(** The props [Scene] passes to one [Cards] element. *)
Record CardsProps := mkCardsProps {
  Cards_key : string;
  Cards_category : string;
  Cards_from : JSNum;
  Cards_len : JSNum;
  Cards_radius : JSNum;
  Cards_photos : list Photo
}.

Definition pointToRadian (total : Z) (point : Z) : JSNum :=
  jdiv (jmul (jmul Math_PI (Fin 2)) (of_Z point)) (of_Z total).

Definition startOfGroup (gs : list Group) (total : Z) (index : Z)
    : option JSNum :=
  g ← js_get gs index; Some (pointToRadian total (start g)).

Definition lenOfGroup (gs : list Group) (total : Z) (index : Z)
    : option JSNum :=
  g ← js_get gs index; Some (pointToRadian total (len g)).

(** The callback of [photoSets.map]: the [Cards] element of one set. *)
Definition Scene_child (gs : list Group) (total : Z)
    (photoSet : PhotoSet) (index : Z) : option CardsProps :=
  from ← startOfGroup gs total index;
  len ← lenOfGroup gs total index;
  Some (mkCardsProps (id photoSet) (set_title photoSet)
          from len (Fin 15) (photos photoSet)).

(** The [Cards] elements of [Scene], in the order of [photoSets.map]. *)
Definition Scene (photoSets : list PhotoSet) : option (list CardsProps) :=
  gs ← groups photoSets;
  total ← total_of gs;
  js_map (Scene_child gs total) photoSets.

(** The props of one [Card].  [Card_photo] is [photos[i]]. *)
Record CardProps := mkCardProps {
  Card_key : JSNum;
  Card_position : JSNum * JSNum * JSNum;
  Card_rotation : JSNum * JSNum * JSNum;
  Card_photo : option Photo
}.

(** [from + (i / amount) * len] *)
Definition angle (from len : JSNum) (amount i : Z) : JSNum :=
  jadd from (jmul (jdiv (of_Z i) (of_Z amount)) len).

(** [from + (amount / 2 / amount) * len] *)
Definition textPosition (from len : JSNum) (amount : Z) : JSNum :=
  jadd from (jmul (jdiv (jdiv (of_Z amount) (Fin 2)) (of_Z amount)) len).

Definition Cards_card (props : CardsProps) (i : Z) : CardProps :=
  let amount := js_length (Cards_photos props) in
  let radius := Cards_radius props in
  let angle := angle (Cards_from props) (Cards_len props) amount i in
  mkCardProps angle
    (jmul (jsin angle) radius, Fin 0, jmul (jcos angle) radius)
    (Fin 0, jadd (jdiv Math_PI (Fin 2)) angle, Fin 0)
    (js_get (Cards_photos props) i).

(** The [Card] elements of one [Cards], in rendering order. *)
Definition Cards (props : CardsProps) : list CardProps :=
  array_from (length (Cards_photos props)) (Cards_card props).

End Carousel.

(** ** Hovering: the state of [Scene] and of each [Cards] *)

Module Hover.

(** A value of [hoveredPhoto]: the state is declared [Photo | null], and
    indexing an array can also give [undefined]. *)
Inductive Value :=
| Undefined
| Null
| Object (photo : Photo).

(** Truthiness: an object is truthy, [null] and [undefined] are not. *)
Definition truthy (v : Value) : bool :=
  match v with Object _ => true | _ => false end.

(** [photos[index]] for [index : number | null].  With [null] the property
    read is ["null"], which an array does not have. *)
Definition photo_at (photos : list Photo) (index : option Z) : Value :=
  match index with
  | None => Undefined
  | Some i =>
      match js_get photos i with
      | Some photo => Object photo
      | None => Undefined
      end
  end.

(** [hoveredPhoto] of [Scene], and [hovered] of every [Cards] (by position
    in [photoSets]). *)
Record State := mkState {
  hoveredPhoto : Value;
  hovered : list (option Z)
}.

(** [useState<Photo | null>(null)] and [useState(null)] *)
Definition initial (photoSets : list PhotoSet) : State :=
  mkState Null (map (fun _ => None) photoSets).

Definition setHoveredPhoto (v : Value) (st : State) : State :=
  mkState v (hovered st).

(** The state setter [hover] of the [Cards] at position [set]. *)
Definition hover (set : nat) (v : option Z) (st : State) : State :=
  mkState (hoveredPhoto st) (<[set := v]> (hovered st)).

(** [(index) => setHoveredPhoto(photoSet.photos[index])] *)
Definition onHoverCard (photoSet : PhotoSet) (index : option Z)
    (st : State) : State :=
  setHoveredPhoto (photo_at (photos photoSet) index) st.

(** The pointer events of card [i] of the set at position [set]. *)
Inductive PointerEvent :=
| PointerOver (set : nat) (i : Z)
| PointerOut (set : nat) (i : Z).

(** A card exists for every index of [Array.from({ length: amount })]. *)
Definition card_exists (photoSets : list PhotoSet) (set : nat) (i : Z)
    : Prop :=
  exists photoSet, photoSets !! set = Some photoSet
                   /\ 0 <= i < js_length (photos photoSet).

(** [onPointerOver] is [hover(i), onHoverCard(i)]; [onPointerOut] is
    [hover(null), onHoverCard(null)].  An event of a card that is not
    rendered has no handler. *)
Definition handle (photoSets : list PhotoSet) (ev : PointerEvent)
    (st : State) : State :=
  match ev with
  | PointerOver set i =>
      match photoSets !! set with
      | Some photoSet => onHoverCard photoSet (Some i) (hover set (Some i) st)
      | None => st
      end
  | PointerOut set _ =>
      match photoSets !! set with
      | Some photoSet => onHoverCard photoSet None (hover set None st)
      | None => st
      end
  end.

(** What a mounted [ActiveCard] shows: the caption and the two image
    urls. *)
Record Preview := mkPreview {
  caption : string;
  fallback_url : string;
  image_url : string
}.

(** [ActiveCard] returns [photo && (...)]. *)
Definition ActiveCard (photo : Value) : option Preview :=
  match photo with
  | Object p => Some (mkPreview (title p) (url (small p)) (url (medium p)))
  | _ => None
  end.

(** [hoveredPhoto ? <ActiveCard photo={hoveredPhoto} /> : null] *)
Definition active_preview (st : State) : option Preview :=
  if truthy (hoveredPhoto st) then ActiveCard (hoveredPhoto st) else None.

(** Whether an [ActiveCard] element is mounted at all. *)
Definition active_mounted (st : State) : bool := truthy (hoveredPhoto st).

End Hover.

(** ** The page: one awaited call, then the gallery *)

Module PageShell.

(** How a promise settles. *)
Inductive Settled (Error A : Type) :=
| Fulfilled (a : A)
| Rejected (e : Error).
Arguments Fulfilled {Error A} a.
Arguments Rejected {Error A} e.

(** The elements [Page] returns.  [Photos] is whatever [getAllPhotos]
    resolves to. *)
#[warnings="-register-all"]
Inductive Element (Photos : Type) :=
| Header
| PhotoGallery (photos : Photos)
| Fragment (children : list (Element Photos)).
Arguments Header {Photos}.
Arguments PhotoGallery {Photos} photos.
Arguments Fragment {Photos} children.

Section Page.
Variables Photos Error : Type.

(** [getAllPhotos] is imported from [@/clients/flickr]; its body is not
    part of the page.  The outside world is the outcome of its n-th
    call, for every n. *)
Variable outcome : nat -> Settled Error Photos.

(** An asynchronous computation: from the number of calls made so far
    to how it settles and the number of calls made by then. *)
Definition Async (A : Type) : Type := nat -> Settled Error A * nat.

Definition resolve {A : Type} (a : A) : Async A :=
  fun calls => (Fulfilled a, calls).

(** [const x = await p; k x]: a rejection of [p] is thrown, and with no
    [try] around it rejects the whole function. *)
Definition await {A B : Type} (p : Async A) (k : A -> Async B)
    : Async B :=
  fun calls =>
    match p calls with
    | (Fulfilled a, calls') => k a calls'
    | (Rejected e, calls') => (Rejected e, calls')
    end.

Definition getAllPhotos : Async Photos :=
  fun calls => (outcome calls, S calls).

Definition Page : Async (Element Photos) :=
  await getAllPhotos (fun photos =>
    resolve (Fragment [Header; PhotoGallery photos])).

End Page.

End PageShell.

(** ** The carousel in double precision *)

Module Binary64.
Import Layout.

(** An integer-valued number below 2^53 (array lengths and indices are
    below 2^32): the double of the same value. *)
Definition of_Z (z : Z) : float :=
  if z <? 0 then (- of_uint63 (Uint63.of_Z (- z)))%float
  else of_uint63 (Uint63.of_Z z).

(** [Math.PI], the double nearest to pi. *)
Definition Math_PI : float := 0x1.921fb54442d18p+1%float.

(** [(Math.PI * 2 * point) / total] *)
Definition pointToRadian (total : Z) (point : Z) : float :=
  ((Math_PI * 2 * of_Z point) / of_Z total)%float.

(** The props [Scene] passes to one [Cards] element. *)
Record CardsProps := mkCardsProps {
  Cards_key : string;
  Cards_category : string;
  Cards_from : float;
  Cards_len : float;
  Cards_radius : float;
  Cards_photos : list Photo
}.

Definition startOfGroup (gs : list Group) (total : Z) (index : Z)
    : option float :=
  g ← js_get gs index; Some (pointToRadian total (start g)).

Definition lenOfGroup (gs : list Group) (total : Z) (index : Z)
    : option float :=
  g ← js_get gs index; Some (pointToRadian total (len g)).

(** The callback of [photoSets.map]: the [Cards] element of one set. *)
Definition Scene_child (gs : list Group) (total : Z)
    (photoSet : PhotoSet) (index : Z) : option CardsProps :=
  from ← startOfGroup gs total index;
  len ← lenOfGroup gs total index;
  Some (mkCardsProps (id photoSet) (set_title photoSet)
          from len 15%float (photos photoSet)).

(** The [Cards] elements of [Scene], in the order of [photoSets.map]. *)
Definition Scene (photoSets : list PhotoSet) : option (list CardsProps) :=
  gs ← groups photoSets;
  total ← total_of gs;
  js_map (Scene_child gs total) photoSets.

(** The props of one [Card].  [Card_photo] is [photos[i]]. *)
Record CardProps := mkCardProps {
  Card_key : float;
  Card_position : float * float * float;
  Card_rotation : float * float * float;
  Card_photo : option Photo
}.

(** [from + (i / amount) * len] *)
Definition angle (from len : float) (amount i : Z) : float :=
  (from + (of_Z i / of_Z amount) * len)%float.

Section Trigonometry.

(** [Math.sin] and [Math.cos]: the language leaves their results to the
    implementation. *)
Variables Math_sin Math_cos : float -> float.

(** The [Card] element built in the callback of [Array.from], [amount]
    being [photos.length] and [photo] being [photos[i]]:
    [key={angle}],
    [position={[Math.sin(angle) * radius, 0, Math.cos(angle) * radius]}],
    [rotation={[0, Math.PI / 2 + angle, 0]}], [photo={photos[i]}]. *)
Definition card_of (from len radius : float) (amount i : Z)
    (photo : option Photo) : CardProps :=
  let angle := angle from len amount i in
  mkCardProps angle
    ((Math_sin angle * radius)%float, 0%float,
     (Math_cos angle * radius)%float)
    (0%float, (Math_PI / 2 + angle)%float, 0%float)
    photo.

Definition Cards_card (props : CardsProps) (i : Z) : CardProps :=
  card_of (Cards_from props) (Cards_len props) (Cards_radius props)
    (js_length (Cards_photos props)) i (js_get (Cards_photos props) i).

(** The [Card] elements of one [Cards], in rendering order. *)
Definition Cards (props : CardsProps) : list CardProps :=
  array_from (length (Cards_photos props)) (Cards_card props).

End Trigonometry.

(** The real number a double stands for (0 for NaN and the infinities,
    which [PrimFloat.is_finite] tells apart). *)
Definition SF2R (x : spec_float) : R :=
  match x with
  | S754_finite s m e =>
      let v := if 0 <=? e then (IZR (Zpos m) * IZR (2 ^ e))%R
               else (IZR (Zpos m) / IZR (2 ^ (- e)))%R in
      if s then (- v)%R else v
  | _ => 0%R
  end.

Definition F2R (x : float) : R := SF2R (Prim2SF x).

(** The operation [op] on [x] and [y] is exact: its result is finite and
    stands for the result of the real operation [rop]. *)
Definition exact (op : float -> float -> float) (rop : R -> R -> R)
    (x y : float) : Prop :=
  PrimFloat.is_finite (op x y) = true
  /\ F2R (op x y) = rop (F2R x) (F2R y).


End Binary64.

(** ** The props as shared objects *)

Module Shared.
Import Layout.

(** The array [photoSets] and the records it holds are objects shared with
    the caller of [Gallery]: the heap is their current content. *)
Abbreviation Heap := (list PhotoSet).

(** A reference to a set of the array, and to its array of photos: the
    position of the set. *)
Definition Ref : Type := nat.

(** The accesses to the shared objects. *)
Inductive Op :=
| GetLength
| GetElement (index : Z)
| GetId (set : Ref)
| GetTitle (set : Ref)
| GetPhotos (set : Ref)
| GetPhotosLength (set : Ref)
| GetPhoto (set : Ref) (i : Z)
| PutElement (index : nat).

Definition is_read (op : Op) : bool :=
  match op with PutElement _ => false | _ => true end.

(** The heap and the accesses made so far, oldest first. *)
Record Memory := mkMemory {
  heap : Heap;
  log : list Op
}.

(** A computation that may read and write the shared objects and may
    throw; an exception keeps the memory reached so far. *)
Definition Comp (A : Type) : Type := Memory -> option A * Memory.

Definition pure {A : Type} (a : A) : Comp A := fun m => (Some a, m).

Definition bind {A B : Type} (c : Comp A) (k : A -> Comp B) : Comp B :=
  fun m =>
    match c m with
    | (Some a, m') => k a m'
    | (None, m') => (None, m')
    end.

(** A step on local values only. *)
Definition lift {A : Type} (o : option A) : Comp A := fun m => (o, m).

Declare Scope comp_scope.
Delimit Scope comp_scope with comp.
Notation "x <~ c ;; k" := (bind c (fun x => k))
  (at level 100, c at next level, right associativity) : comp_scope.
Local Open Scope comp_scope.

(** A read access: logged, and answered from the heap. *)
Definition read {A : Type} (op : Op) (f : Heap -> option A) : Comp A :=
  fun m => (f (heap m), mkMemory (heap m) (log m ++ [op])).

(** [photoSets.length] *)
Definition get_length : Comp Z :=
  read GetLength (fun h => Some (js_length h)).

(** The element [photoSets[index]] that [reduce] and [map] hand to their
    callback: a reference. *)
Definition get_element (index : Z) : Comp Ref :=
  read (GetElement index)
    (fun h => element ← js_get h index; Some (Z.to_nat index)).

(** [set.id], [set.title], [set.photos] *)
Definition get_id (set : Ref) : Comp string :=
  read (GetId set) (fun h => s ← h !! set; Some (id s)).

Definition get_title (set : Ref) : Comp string :=
  read (GetTitle set) (fun h => s ← h !! set; Some (set_title s)).

Definition get_photos (set : Ref) : Comp (list Photo) :=
  read (GetPhotos set) (fun h => s ← h !! set; Some (photos s)).

(** [photos.length] and [photos[i]] on the photos of [set] *)
Definition get_photos_length (set : Ref) : Comp Z :=
  read (GetPhotosLength set) (fun h => s ← h !! set; Some (js_length (photos s))).

Definition get_photo (set : Ref) (i : Z) : Comp (option Photo) :=
  read (GetPhoto set i) (fun h => s ← h !! set; Some (js_get (photos s) i)).

(** [photoSets[index] = v], or an assignment to a field of that set: the
    write a mutation would perform. *)
Definition put_element (index : nat) (v : PhotoSet) : Comp unit :=
  fun m =>
    (Some tt, mkMemory (<[index := v]> (heap m)) (log m ++ [PutElement index])).

(** The loop of [photoSets.reduce]: [n] elements are left, from [index]. *)
Fixpoint reduce_loop {B : Type} (f : B -> Ref -> Z -> Comp B)
    (n : nat) (index : Z) (acc : B) : Comp B :=
  match n with
  | O => pure acc
  | S n' =>
      set <~ get_element index;;
      acc' <~ f acc set index;;
      reduce_loop f n' (index + 1) acc'
  end.

Definition photoSets_reduce {B : Type} (f : B -> Ref -> Z -> Comp B)
    (init : B) : Comp B :=
  n <~ get_length;; reduce_loop f (Z.to_nat n) 0 init.

(** The loop of [photoSets.map]. *)
Fixpoint map_loop {B : Type} (f : Ref -> Z -> Comp B)
    (n : nat) (index : Z) : Comp (list B) :=
  match n with
  | O => pure []
  | S n' =>
      set <~ get_element index;;
      y <~ f set index;;
      ys <~ map_loop f n' (index + 1);;
      pure (y :: ys)
  end.

Definition photoSets_map {B : Type} (f : Ref -> Z -> Comp B)
    : Comp (list B) :=
  n <~ get_length;; map_loop f (Z.to_nat n) 0.

(** The loop of [Array.from({ length: n }, (_, i) => f(i))]. *)
Fixpoint from_loop {B : Type} (f : Z -> Comp B) (n : nat) (i : Z)
    : Comp (list B) :=
  match n with
  | O => pure []
  | S n' =>
      y <~ f i;;
      ys <~ from_loop f n' (i + 1);;
      pure (y :: ys)
  end.

(** The callback of [photoSets.reduce] in [Scene]; [groups] is a local
    array. *)
Definition groups_stepM (groups : list Group) (set : Ref) (index : Z)
    : Comp (list Group) :=
  n <~ get_photos_length set;;
  let len := n - 1 in
  start <~ lift (if index =? 0 then Some 0
                 else prev ← js_get groups (index - 1);
                      Some (start prev + len + gapBetweenGroups));;
  let end_ := start + len in
  pure (groups ++ [mkGroup start len end_]).

Section Trigonometry.
Variables Math_sin Math_cos : float -> float.

(** [Cards], given its number props and the reference [photos]. *)
Definition CardsM (from len radius : float) (photos : Ref)
    : Comp (list Binary64.CardProps) :=
  amount <~ get_photos_length photos;;
  from_loop
    (fun i =>
       photo <~ get_photo photos i;;
       pure (Binary64.card_of Math_sin Math_cos from len radius amount i
               photo))
    (Z.to_nat amount) 0.

(** The callback of [photoSets.map] in [Scene], down to the cards. *)
Definition Scene_childM (gs : list Group) (total : Z) (photoSet : Ref)
    (index : Z) : Comp (Binary64.CardsProps * list Binary64.CardProps) :=
  key <~ get_id photoSet;;
  category <~ get_title photoSet;;
  from <~ lift (Binary64.startOfGroup gs total index);;
  len <~ lift (Binary64.lenOfGroup gs total index);;
  photos <~ get_photos photoSet;;
  cards <~ CardsM from len 15%float photoSet;;
  pure (Binary64.mkCardsProps key category from len 15%float photos, cards).

(** [Scene] down to the cards: the groups, the total, and for every set the
    props of its [Cards] with the [Card] elements it renders. *)
Definition SceneM
    : Comp (list (Binary64.CardsProps * list Binary64.CardProps)) :=
  gs <~ photoSets_reduce groups_stepM [];;
  total <~ lift (total_of gs);;
  photoSets_map (Scene_childM gs total).

End Trigonometry.

(** On the heap [h], the computation [c] returns [v] after read accesses
    only, and leaves the heap as it was. *)
Definition reads_only {A : Type} (h : Heap) (c : Comp A) (v : option A)
    : Prop :=
  forall log0, exists ops,
    c (mkMemory h log0) = (v, mkMemory h (log0 ++ ops))
    /\ Forall (fun op => is_read op = true) ops.

End Shared.

(** ** The label of a set, the flags and the per-frame targets of a card *)

Module CardView.
Import Carousel.

(** The position of the [Billboard] that carries the category:
    [[Math.sin(textPosition) * radius * 1.4, 0.5,
      Math.cos(textPosition) * radius * 1.4]]. *)
Definition label_position (props : CardsProps) : JSNum * JSNum * JSNum :=
  let amount := js_length (Cards_photos props) in
  let radius := Cards_radius props in
  let textPosition :=
    textPosition (Cards_from props) (Cards_len props) amount in
  (jmul (jmul (jsin textPosition) radius) (Fin (14 / 10)),
   Fin (5 / 10),
   jmul (jmul (jcos textPosition) radius) (Fin (14 / 10))).

(** The props [active] and [hovered] of card [i] when the state of its
    [Cards] is [hovered]: [hovered !== null] and [hovered === i]. *)
Definition Card_active (hovered : option Z) : bool :=
  match hovered with Some _ => true | None => false end.

Definition Card_hovered (hovered : option Z) (i : Z) : bool :=
  match hovered with Some j => j =? i | None => false end.

(** [Card]: [ratio], and the targets its frame callback eases to. *)
Definition ratio : R := 1618 / 1000.

(** [hovered ? 1.4 : active ? 1.25 : 1] *)
Definition f (hovered active : bool) : R :=
  if hovered then 14 / 10 else if active then 125 / 100 else 1.

(** [[0, hovered ? 0.25 : 0, 0]] *)
Definition position_target (hovered : bool) : R * R * R :=
  (0, if hovered then 25 / 100 else 0, 0)%R.

(** [[ratio * f, 1 * f, 1]] *)
Definition scale_target (hovered active : bool) : R * R * R :=
  (ratio * f hovered active, 1 * f hovered active, 1)%R.

End CardView.

(** ** Sequences of pointer events *)

Module HoverRun.
Import Hover.

(** The state after the handlers of [events] have run in order. *)
Definition run (photoSets : list PhotoSet) (events : list PointerEvent)
    (st : State) : State :=
  fold_left (fun st ev => handle photoSets ev st) events st.

(** The targets of card [i] of the set at position [set] in state [st]:
    the state of that [Cards] decides the flags of its cards. *)
Definition card_scale_target (st : State) (set : nat) (i : Z)
    : option (R * R * R) :=
  h ← hovered st !! set;
  Some (CardView.scale_target (CardView.Card_hovered h i)
          (CardView.Card_active h)).

End HoverRun.

(** ** Sums of group lengths *)

Module LayoutSums.
Import Layout.

(** The points a set adds to the start of the groups after it: its length
    [photos.length - 1] plus the gap. *)
Definition points (set : PhotoSet) : Z :=
  js_length (photos set) - 1 + gapBetweenGroups.

Definition sum_points (sets : list PhotoSet) : Z :=
  fold_right Z.add 0 (map points sets).

End LayoutSums.

(** ** Sample data *)

Module Samples.

Definition a_photo : Photo :=
  mkPhoto "Quai" (mkVariant "quai_s.jpg" 240 160)
    (mkVariant "quai_m.jpg" 500 333).

(** A set of [n] photos. *)
Definition set_of (n : nat) : PhotoSet :=
  mkPhotoSet "72157" "Bordeaux" (repeat a_photo n).

(** The props of a [Cards] with [n] photos on the arc from 0 of length 1. *)
Definition cards_of (n : nat) : Carousel.CardsProps :=
  Carousel.mkCardsProps "72157" "Bordeaux" (Fin 0) (Fin 1) (Fin 15)
    (repeat a_photo n).


(** A network whose first call rejects and whose later calls resolve. *)
Definition flaky (n : nat)
    : PageShell.Settled string (list PhotoSet) :=
  match n with
  | O => PageShell.Rejected "timeout"%string
  | S _ => PageShell.Fulfilled [set_of 2]
  end.

End Samples.

(** * Properties *)

(** ** Arrays *)

Lemma js_get_of_nat {A : Type} (arr : list A) (i : nat) :
  js_get arr (Z.of_nat i) = arr !! i.
Proof.
  unfold js_get.
  destruct (Z.ltb_spec (Z.of_nat i) 0) as [Hneg | _]; [lia |].
  by rewrite Nat2Z.id.
Qed.

Lemma js_get_last {A : Type} (arr : list A) :
  js_get arr (js_length arr - 1) = last arr.
Proof.
  unfold js_get, js_length.
  destruct arr as [| x arr'] using rev_ind; [reflexivity |].
  rewrite last_snoc, length_app. cbn [length].
  destruct (Z.ltb_spec (Z.of_nat (length arr' + 1) - 1) 0) as [Hneg | _];
    [lia |].
  replace (Z.to_nat (Z.of_nat (length arr' + 1) - 1)) with (length arr')
    by lia.
  by rewrite list_lookup_middle.
Qed.



(** ** The group layout *)

Module LayoutFacts.
Import Layout.

Lemma groups_step_at_end (gs : list Group) (set : PhotoSet) :
  groups_step gs set (js_length gs) = Some (gs ++ layout (last gs) [set]).
Proof.
  unfold groups_step. cbn [layout].
  destruct (Z.eqb_spec (js_length gs) 0) as [Hz | Hnz].
  - destruct gs; [reflexivity | unfold js_length in Hz; cbn in Hz; lia].
  - rewrite js_get_last.
    destruct (last gs) as [p |] eqn:Hlast; [reflexivity |].
    apply last_None in Hlast. subst gs. by destruct Hnz.
Qed.

Lemma layout_length (prev : option Group) (photoSets : list PhotoSet) :
  length (layout prev photoSets) = length photoSets.
Proof.
  revert prev. induction photoSets as [| set rest IH]; intros prev;
    cbn [layout length]; [reflexivity | by rewrite IH].
Qed.

Lemma reduce_from_layout (photoSets : list PhotoSet) (gs : list Group) :
  reduce_from groups_step photoSets (js_length gs) gs
  = Some (gs ++ layout (last gs) photoSets).
Proof.
  revert gs. induction photoSets as [| set rest IH]; intros gs.
  - cbn. by rewrite app_nil_r.
  - cbn [reduce_from]. rewrite groups_step_at_end. cbn [mbind option_bind].
    replace (js_length gs + 1)
      with (js_length (gs ++ layout (last gs) [set])).
    2:{ unfold js_length. rewrite length_app, layout_length. cbn. lia. }
    rewrite IH. cbn [layout]. rewrite last_snoc, <- app_assoc. reflexivity.
Qed.

Lemma groups_layout (photoSets : list PhotoSet) :
  groups photoSets = Some (layout None photoSets).
Proof. exact (reduce_from_layout photoSets []). Qed.

(** What line 42 computes: from the second group on, the start is the start
    of the group before plus the length of the group itself plus the gap. *)
Lemma layout_start_step (photoSets : list PhotoSet) (prev : option Group)
    (i : nat) (g' g : Group) :
  layout prev photoSets !! i = Some g' ->
  layout prev photoSets !! S i = Some g ->
  start g = start g' + len g + gapBetweenGroups.
Proof.
  revert prev i. induction photoSets as [| set rest IH]; intros prev i;
    [done |].
  destruct i as [| i].
  - cbn [layout]. intros [= <-]. destruct rest as [| set' rest']; [done |].
    cbn. by intros [= <-].
  - cbn [layout]. apply IH.
Qed.

Lemma layout_end (photoSets : list PhotoSet) (prev : option Group)
    (i : nat) (g : Group) :
  layout prev photoSets !! i = Some g -> end_ g = start g + len g.
Proof.
  revert prev i. induction photoSets as [| set rest IH]; intros prev i;
    [done |].
  destruct i as [| i]; cbn [layout]; [by intros [= <-] | apply IH].
Qed.

End LayoutFacts.

(** ** Numbers *)

Module NumberFacts.

Lemma sign_zero : sign 0 = Zero.
Proof.
  unfold sign. destruct (total_order_T 0 0) as [[H | H] | H];
    [lra | reflexivity | lra].
Qed.

Lemma sign_pos (r : R) : (0 < r)%R -> sign r = Positive.
Proof.
  intros Hr. unfold sign.
  destruct (total_order_T r 0) as [[H | H] | H]; [lra | lra | reflexivity].
Qed.

Lemma sign_neg (r : R) : (r < 0)%R -> sign r = Negative.
Proof.
  intros Hr. unfold sign.
  destruct (total_order_T r 0) as [[H | H] | H]; [reflexivity | lra | lra].
Qed.

Lemma signed_inf_not_finite (s : Sign) : is_finite (signed_inf s) = false.
Proof. by destruct s. Qed.

Lemma jdiv_fin (a b : R) : b <> 0%R -> jdiv (Fin a) (Fin b) = Fin (a / b).
Proof.
  intros Hb. unfold jdiv, sign.
  destruct (total_order_T b 0) as [[H | H] | H]; done.
Qed.

Lemma jdiv_by_zero (a : R) : jdiv (Fin a) (Fin 0) = signed_inf (sign a).
Proof. unfold jdiv. by rewrite sign_zero. Qed.

Lemma jadd_nan_l (x : JSNum) : jadd NaN x = NaN.
Proof. by destruct x. Qed.


End NumberFacts.

(** ** The cards of one set *)

Module CardsFacts.
Import Carousel NumberFacts.





End CardsFacts.

(** ** The scene *)

Module SceneFacts.
Import Layout Carousel NumberFacts LayoutFacts.

Lemma map_from_defined {A B : Type} (f : A -> Z -> option B)
    (arr : list A) (index : Z) :
  (forall (i : nat) (x : A),
     arr !! i = Some x -> is_Some (f x (index + Z.of_nat i))) ->
  is_Some (map_from f arr index).
Proof.
  revert index. induction arr as [| x rest IH]; intros index Hf; [by eexists |].
  cbn [map_from].
  destruct (Hf 0%nat x eq_refl) as [y Hy].
  rewrite Z.add_0_r in Hy. rewrite Hy. cbn.
  destruct (IH (index + 1)) as [ys Hys].
  { intros i x' Hx'. replace (index + 1 + Z.of_nat i)
      with (index + Z.of_nat (S i)) by lia. by apply Hf. }
  rewrite Hys. by eexists.
Qed.

Lemma map_from_lookup {A B : Type} (f : A -> Z -> option B)
    (arr : list A) (index : Z) (ys : list B) :
  map_from f arr index = Some ys ->
  length ys = length arr
  /\ forall (i : nat) (x : A),
       arr !! i = Some x ->
       exists y, ys !! i = Some y /\ f x (index + Z.of_nat i) = Some y.
Proof.
  revert index ys. induction arr as [| x rest IH]; intros index ys.
  - intros [= <-]. done.
  - cbn [map_from]. destruct (f x index) as [y |] eqn:Hy; [| done]. cbn.
    destruct (map_from f rest (index + 1)) as [ys' |] eqn:Hys; [| done]. cbn.
    intros [= <-]. destruct (IH _ _ Hys) as [Hlen Hget]. split.
    + cbn. by rewrite Hlen.
    + intros [| i] x'.
      * intros [= <-]. exists y. by rewrite Z.add_0_r.
      * intros Hx'. destruct (Hget i x' Hx') as [y' [Hy' Hf]].
        exists y'. split; [done |].
        by replace (index + Z.of_nat (S i))
             with (index + 1 + Z.of_nat i) by lia.
Qed.

Lemma total_of_layout (photoSets : list PhotoSet) :
  total photoSets = g ← last (layout None photoSets); Some (end_ g).
Proof.
  unfold total. rewrite groups_layout. cbn. unfold total_of.
  by rewrite js_get_last.
Qed.

Lemma total_nonempty (photoSets : list PhotoSet) :
  photoSets <> [] -> is_Some (total photoSets).
Proof.
  intros Hne. rewrite total_of_layout.
  destruct (last (layout None photoSets)) as [g |] eqn:Hlast; [by eexists |].
  apply last_None in Hlast. apply (f_equal length) in Hlast.
  rewrite layout_length in Hlast. by destruct photoSets.
Qed.

(** Every index of [photoSets] is an index of the groups. *)
Lemma Scene_child_defined (photoSets : list PhotoSet) (t : Z)
    (i : nat) (photoSet : PhotoSet) :
  photoSets !! i = Some photoSet ->
  is_Some (Scene_child (layout None photoSets) t photoSet (Z.of_nat i)).
Proof.
  intros Hset. unfold Scene_child, startOfGroup, lenOfGroup.
  rewrite js_get_of_nat.
  destruct (lookup_lt_is_Some_2 (layout None photoSets) i) as [g Hg].
  { rewrite layout_length. by eapply lookup_lt_Some. }
  rewrite Hg. by eexists.
Qed.

Lemma Scene_nonempty (photoSets : list PhotoSet) :
  photoSets <> [] -> is_Some (Scene photoSets).
Proof.
  intros Hne. unfold Scene.
  destruct (total_nonempty photoSets Hne) as [t Ht].
  unfold total in Ht. rewrite groups_layout in *. cbn in *. rewrite Ht. cbn.
  apply map_from_defined. intros i x Hx. by apply Scene_child_defined.
Qed.

End SceneFacts.

Module SceneTheorems.
Import Layout Carousel NumberFacts LayoutFacts SceneFacts.

(** C1, at the sets of 3 photos and of 1 photo.  The groups are
    [{start: 0, len: 2, end: 2}] and [{start: 2, len: 0, end: 2}]: the
    second group starts at 2, on the end of the first, and not at
    [2 + gapBetweenGroups = 4]. *)
Theorem C1_second_group_starts_on_first_end :
  groups [Samples.set_of 3; Samples.set_of 1]
  = Some [mkGroup 0 2 2; mkGroup 2 0 2]
  /\ start (mkGroup 2 0 2) <> end_ (mkGroup 0 2 2) + gapBetweenGroups.
Proof. split; [reflexivity | discriminate]. Qed.

(** What the reduction computes in general: group [i + 1] starts at the
    end of group [i] plus the gap exactly when both groups have the same
    length. *)
Lemma groups_sequential_iff (photoSets : list PhotoSet) (gs : list Group)
    (i : nat) (g' g : Group) :
  groups photoSets = Some gs ->
  gs !! i = Some g' -> gs !! S i = Some g ->
  start g = end_ g' + gapBetweenGroups <-> len g = len g'.
Proof.
  rewrite groups_layout. intros [= <-] Hg' Hg.
  rewrite (layout_start_step _ _ _ _ _ Hg' Hg), (layout_end _ _ _ _ Hg').
  lia.
Qed.

(** C4. The scene needs a non-empty list of sets: on the empty list the
    groups are the empty array, reading [end] of its last element throws and
    [Scene] renders nothing; on every non-empty list the read succeeds and
    so does [Scene]. *)
Theorem C4_scene_defined_iff_nonempty :
  (groups [] = Some [] /\ js_get (@nil Group) (js_length (@nil Group) - 1) = None
   /\ total [] = None /\ Scene [] = None)
  /\ (forall photoSets : list PhotoSet,
        photoSets <> [] ->
        exists gs last_group,
          groups photoSets = Some gs
          /\ js_get gs (js_length gs - 1) = Some last_group
          /\ total photoSets = Some (end_ last_group)
          /\ is_Some (Scene photoSets)).
Proof.
  split; [done |].
  intros photoSets Hne. destruct (total_nonempty photoSets Hne) as [t Ht].
  pose proof (Scene_nonempty photoSets Hne) as HScene.
  unfold total in *. rewrite groups_layout in *. cbn in Ht.
  unfold total_of in Ht.
  destruct (js_get _ _) as [g |] eqn:Hg; [| done].
  exists (layout None photoSets), g. cbn. unfold total_of. by rewrite Hg.
Qed.

Lemma C4_scene_defined_iff_nonempty_witness :
  exists gs last_group,
    groups [Samples.set_of 2] = Some gs
    /\ js_get gs (js_length gs - 1) = Some last_group
    /\ total [Samples.set_of 2] = Some (end_ last_group)
    /\ is_Some (Scene [Samples.set_of 2]).
Proof.
  apply (proj2 C4_scene_defined_iff_nonempty [Samples.set_of 2]).
  discriminate.
Defined.

(** C5. One set of one photo gives the total 0: the conversion then divides
    by zero and every angle of the scene is NaN or an infinity.  Whenever
    the last group ends at a positive point, the conversion of a point is
    the finite number [(PI * 2 * point) / total]. *)
Theorem C5_pointToRadian_total_zero_or_positive :
  (forall (set : PhotoSet) (photo : Photo),
     photos set = [photo] ->
     total [set] = Some 0
     /\ (forall point : Z, is_finite (pointToRadian 0 point) = false)
     /\ (exists props,
           Scene [set] = Some [props]
           /\ is_finite (Cards_from props) = false
           /\ is_finite (Cards_len props) = false
           /\ forall c, c ∈ Cards props -> is_finite (Card_key c) = false))
  /\ (forall (photoSets : list PhotoSet) (t point : Z),
        total photoSets = Some t -> 0 < t ->
        pointToRadian t point = Fin (PI * 2 * IZR point / IZR t)).
Proof.
  split.
  - intros [set_id set_name set_photos] photo Hphotos.
    cbn in Hphotos. subst set_photos.
    assert (Hzero : forall point, is_finite (pointToRadian 0 point) = false).
    { intros point. unfold pointToRadian, Math_PI, of_Z. cbn [jmul].
      rewrite jdiv_by_zero. apply signed_inf_not_finite. }
    assert (Hnan : pointToRadian 0 0 = NaN).
    { unfold pointToRadian, Math_PI, of_Z. cbn [jmul].
      rewrite jdiv_by_zero. rewrite Rmult_0_r, sign_zero. reflexivity. }
    split; [| split; [exact Hzero |]].
    + reflexivity.
    + exists (mkCardsProps set_id set_name (pointToRadian 0 0)
                (pointToRadian 0 0) (Fin 15) [photo]).
      split; [reflexivity |].
      cbn [Cards_from Cards_len]. rewrite Hnan.
      split; [reflexivity |]. split; [reflexivity |].
      intros c Hc. unfold Cards, array_from in Hc.
        apply list_elem_of_fmap in Hc as [i [-> _]].
        unfold Cards_card. cbn [Card_key Cards_from]. unfold angle.
        by rewrite jadd_nan_l.
  - intros photoSets t point _ Ht.
    unfold pointToRadian, Math_PI, of_Z. cbn [jmul].
    apply jdiv_fin. apply not_0_IZR. lia.
Qed.

Lemma C5_pointToRadian_total_zero_or_positive_witness :
  total [Samples.set_of 1] = Some 0
  /\ pointToRadian 6 4 = Fin (PI * 2 * IZR 4 / IZR 6).
Proof.
  split.
  - apply (proj1 C5_pointToRadian_total_zero_or_positive
             (Samples.set_of 1) Samples.a_photo).
    reflexivity.
  - apply (proj2 C5_pointToRadian_total_zero_or_positive
             [Samples.set_of 3; Samples.set_of 3] 6 4).
    + reflexivity.
    + lia.
Defined.

End SceneTheorems.

(** ** The page *)

Module PageTheorems.
Import PageShell.

Section Outcomes.
Variables Photos Error : Type.

(** C6. A failed fetch rejects the page: if the call of [getAllPhotos]
    rejects with [e], the page rejects with the same [e] (no element, hence
    no gallery, is produced) and [getAllPhotos] has been called exactly once
    more (no retry), whatever later calls would have answered. *)
Theorem C6_failed_fetch_rejects_page
    (outcome : nat -> Settled Error Photos) (calls : nat) (e : Error) :
  outcome calls = Rejected e ->
  Page Photos Error outcome calls = (Rejected e, S calls)
  /\ forall element : Element Photos,
       fst (Page Photos Error outcome calls) <> Fulfilled element.
Proof.
  intros He. unfold Page, await, getAllPhotos. rewrite He. split; done.
Qed.

(** C9. One call, awaited before the gallery: a render of the page calls
    [getAllPhotos] exactly once; the page fulfils only when that call did,
    and then with the header followed by the gallery over the photos the
    call resolved to; only the answer to that one call matters (no retry,
    no fallback). *)
Theorem C9_one_fetch_before_gallery
    (outcome : nat -> Settled Error Photos) (calls : nat) :
  snd (Page Photos Error outcome calls) = S calls
  /\ (forall photos : Photos,
        outcome calls = Fulfilled photos ->
        fst (Page Photos Error outcome calls)
        = Fulfilled (Fragment [Header; PhotoGallery photos]))
  /\ (forall element : Element Photos,
        fst (Page Photos Error outcome calls) = Fulfilled element ->
        exists photos, outcome calls = Fulfilled photos
                       /\ element = Fragment [Header; PhotoGallery photos])
  /\ (forall outcome' : nat -> Settled Error Photos,
        outcome' calls = outcome calls ->
        Page Photos Error outcome' calls = Page Photos Error outcome calls).
Proof.
  unfold Page, await, getAllPhotos, resolve.
  split; [by destruct (outcome calls) |].
  split; [by intros photos -> |]. split.
  - intros element. destruct (outcome calls) as [photos | e]; [| done].
    cbn. intros [= <-]. by exists photos.
  - by intros outcome' ->.
Qed.

End Outcomes.

Lemma C6_failed_fetch_rejects_page_witness :
  Page (list PhotoSet) string Samples.flaky 0%nat
  = (Rejected "timeout"%string, 1%nat).
Proof.
  refine (proj1 (C6_failed_fetch_rejects_page (list PhotoSet) string
                   Samples.flaky 0%nat "timeout"%string _)).
  reflexivity.
Defined.

Lemma C9_one_fetch_before_gallery_witness :
  fst (Page (list PhotoSet) string Samples.flaky 1%nat)
  = Fulfilled (Fragment [Header; PhotoGallery [Samples.set_of 2]]).
Proof.
  refine (proj1 (proj2 (C9_one_fetch_before_gallery (list PhotoSet) string
                          Samples.flaky 1%nat)) _ _).
  reflexivity.
Defined.

End PageTheorems.

(** ** Hovering *)

Module HoverTheorems.
Import Hover.

(** C10. Pointer out unmounts the preview: when the pointer leaves a
    rendered card, the handler calls the hover callback with [null], the
    scene stores [photos[null]], which is [undefined] (neither a photo nor
    [null]), and no [ActiveCard] is shown in the resulting state. *)
Theorem C10_pointer_out_unmounts_preview
    (photoSets : list PhotoSet) (set : nat) (i : Z) (st : State) :
  card_exists photoSets set i ->
  exists photoSet,
    photoSets !! set = Some photoSet
    /\ handle photoSets (PointerOut set i) st
       = onHoverCard photoSet None (hover set None st)
    /\ hoveredPhoto (handle photoSets (PointerOut set i) st) = Undefined
    /\ active_mounted (handle photoSets (PointerOut set i) st) = false
    /\ active_preview (handle photoSets (PointerOut set i) st) = None.
Proof.
  intros [photoSet [Hset _]]. exists photoSet.
  unfold handle. rewrite Hset. done.
Qed.

Lemma C10_pointer_out_unmounts_preview_witness :
  active_preview
    (handle [Samples.set_of 2] (PointerOut 0%nat 1)
       (handle [Samples.set_of 2] (PointerOver 0%nat 1)
          (initial [Samples.set_of 2])))
  = None.
Proof.
  destruct (C10_pointer_out_unmounts_preview [Samples.set_of 2] 0%nat 1
              (handle [Samples.set_of 2] (PointerOver 0%nat 1)
                 (initial [Samples.set_of 2])))
    as [photoSet [_ [_ [_ [_ Hnone]]]]].
  - exists (Samples.set_of 2). split; [reflexivity | unfold js_length; simpl; lia].
  - exact Hnone.
Defined.

(** Before the pointer leaves, the hovered card's photo is previewed. *)
Lemma pointer_over_mounts_preview :
  active_preview
    (handle [Samples.set_of 2] (PointerOver 0%nat 1)
       (initial [Samples.set_of 2]))
  = Some (mkPreview "Quai" "quai_s.jpg" "quai_m.jpg").
Proof. reflexivity. Qed.

End HoverTheorems.

(** ** More on the group layout *)

Module LayoutMore.
Import Layout LayoutFacts LayoutSums.

Lemma layout_len (photoSets : list PhotoSet) (prev : option Group)
    (i : nat) (g : Group) (set : PhotoSet) :
  layout prev photoSets !! i = Some g -> photoSets !! i = Some set ->
  len g = js_length (photos set) - 1.
Proof.
  revert prev i. induction photoSets as [| s rest IH]; intros prev i;
    [done |].
  destruct i as [| i]; cbn [layout].
  - by intros [= <-] [= <-].
  - apply IH.
Qed.

Lemma layout_len_lower (photoSets : list PhotoSet) (prev : option Group)
    (i : nat) (g : Group) :
  layout prev photoSets !! i = Some g -> -1 <= len g.
Proof.
  intros Hg.
  destruct (lookup_lt_is_Some_2 photoSets i) as [set Hset].
  { rewrite <- (layout_length prev). by eapply lookup_lt_Some. }
  rewrite (layout_len _ _ _ _ _ Hg Hset). unfold js_length. lia.
Qed.

(** X1. The reducer never throws: there is one group per set, its length is
    the number of photos of the set minus one and its end is its start plus
    its length. *)
Theorem groups_one_per_set (photoSets : list PhotoSet) :
  exists gs,
    groups photoSets = Some gs
    /\ length gs = length photoSets
    /\ forall (i : nat) (set : PhotoSet),
         photoSets !! i = Some set ->
         exists g, gs !! i = Some g
                   /\ len g = js_length (photos set) - 1
                   /\ end_ g = start g + len g.
Proof.
  exists (layout None photoSets). split; [apply groups_layout |].
  split; [apply layout_length |].
  intros i set Hset.
  destruct (lookup_lt_is_Some_2 (layout None photoSets) i) as [g Hg].
  { rewrite layout_length. by eapply lookup_lt_Some. }
  exists g. split; [done |]. split.
  - by eapply layout_len.
  - by eapply layout_end.
Qed.

Lemma groups_one_per_set_witness :
  exists gs,
    groups [Samples.set_of 0; Samples.set_of 5] = Some gs
    /\ length gs = 2%nat
    /\ forall (i : nat) (set : PhotoSet),
         [Samples.set_of 0; Samples.set_of 5] !! i = Some set ->
         exists g, gs !! i = Some g
                   /\ len g = js_length (photos set) - 1
                   /\ end_ g = start g + len g.
Proof. exact (groups_one_per_set [Samples.set_of 0; Samples.set_of 5]). Defined.

Lemma sum_points_snoc (sets : list PhotoSet) (set : PhotoSet) :
  sum_points (sets ++ [set]) = sum_points sets + points set.
Proof.
  unfold sum_points. induction sets as [| s sets IH]; cbn in *; lia.
Qed.


Lemma layout_start_sum (photoSets : list PhotoSet) (p : Group) (i : nat)
    (g : Group) :
  layout (Some p) photoSets !! i = Some g ->
  start g = start p + sum_points (take (S i) photoSets).
Proof.
  revert p i g.
  induction photoSets as [| set rest IH]; intros p i g; [done |].
  destruct i as [| i]; cbn [layout].
  - intros [= <-]. change (take 1 (set :: rest)) with [set].
    cbn [start]. unfold sum_points. cbn [map fold_right].
    unfold points. lia.
  - cbn [lookup list_lookup]. intros Hg. rewrite (IH _ _ _ Hg).
    change (take (S (S i)) (set :: rest)) with (set :: take (S i) rest).
    cbn [start]. unfold sum_points. cbn [map fold_right].
    unfold points. lia.
Qed.

(** X2. The start of group [i] is the sum, over the sets 1 to [i], of the
    number of photos plus one; the first set does not enter it. *)
Theorem groups_start_closed_form (first : PhotoSet) (rest : list PhotoSet)
    (gs : list Group) (i : nat) (g : Group) :
  groups (first :: rest) = Some gs -> gs !! i = Some g ->
  start g = sum_points (take i rest)
  /\ forall first' gs',
       groups (first' :: rest) = Some gs' ->
       exists g', gs' !! i = Some g' /\ start g' = start g.
Proof.
  rewrite groups_layout. intros [= <-] Hg.
  assert (Hstart : forall f0 g0,
            layout None (f0 :: rest) !! i = Some g0 ->
            start g0 = sum_points (take i rest)).
  { intros f0 g0. cbn [layout]. destruct i as [| i].
    - by intros [= <-].
    - cbn [lookup list_lookup]. intros Hg0.
      by rewrite (layout_start_sum _ _ _ _ Hg0). }
  split; [by eapply Hstart |].
  intros first' gs'. rewrite groups_layout. intros [= <-].
  destruct (lookup_lt_is_Some_2 (layout None (first' :: rest)) i) as [g' Hg'].
  { rewrite layout_length. apply lookup_lt_Some in Hg.
    cbn [length] in *. by rewrite layout_length in Hg. }
  exists g'. split; [done |].
  by rewrite (Hstart _ _ Hg'), (Hstart _ _ Hg).
Qed.

Lemma groups_start_closed_form_witness :
  start (mkGroup 7 3 10)
  = sum_points (take 2 [Samples.set_of 1; Samples.set_of 4]).
Proof.
  refine (proj1 (groups_start_closed_form (Samples.set_of 9)
                   [Samples.set_of 1; Samples.set_of 4]
                   [mkGroup 0 8 8; mkGroup 2 0 2; mkGroup 7 3 10]
                   2%nat (mkGroup 7 3 10) _ _)).
  - reflexivity.
  - reflexivity.
Defined.

End LayoutMore.

Module LayoutOrder.
Import Layout LayoutFacts LayoutSums LayoutMore.

Lemma layout_start_next (photoSets : list PhotoSet) (prev : option Group)
    (i : nat) (g' g : Group) :
  layout prev photoSets !! i = Some g' ->
  layout prev photoSets !! S i = Some g ->
  start g' + 1 <= start g.
Proof.
  intros Hg' Hg. rewrite (layout_start_step _ _ _ _ _ Hg' Hg).
  pose proof (layout_len_lower _ _ _ _ Hg). unfold gapBetweenGroups. lia.
Qed.

Lemma layout_start_lt (photoSets : list PhotoSet) (prev : option Group)
    (i j : nat) (gi gj : Group) :
  (i < j)%nat ->
  layout prev photoSets !! i = Some gi ->
  layout prev photoSets !! j = Some gj ->
  start gi < start gj.
Proof.
  intros Hij Hgi. revert gj. induction j as [| j IH]; intros gj Hgj; [lia |].
  destruct (lookup_lt_is_Some_2 (layout prev photoSets) j) as [g Hg].
  { apply lookup_lt_Some in Hgj. lia. }
  pose proof (layout_start_next _ _ _ _ _ Hg Hgj) as Hstep.
  destruct (decide (i = j)) as [-> | Hne].
  - rewrite Hgi in Hg. injection Hg as ->. lia.
  - assert (start gi < start g) by (apply IH; [lia | done]). lia.
Qed.

(** X3. The groups start in the order of the sets: a later group starts at a
    strictly larger point, whatever the sizes of the sets (also empty
    ones). *)
Theorem groups_start_increasing (photoSets : list PhotoSet)
    (gs : list Group) (i j : nat) (gi gj : Group) :
  groups photoSets = Some gs -> (i < j)%nat ->
  gs !! i = Some gi -> gs !! j = Some gj ->
  start gi < start gj.
Proof.
  rewrite groups_layout. intros [= <-]. apply layout_start_lt.
Qed.

Lemma groups_start_increasing_witness :
  start (mkGroup 0 8 8) < start (mkGroup 2 0 2).
Proof.
  apply (groups_start_increasing [Samples.set_of 9; Samples.set_of 1]
           [mkGroup 0 8 8; mkGroup 2 0 2] 0%nat 1%nat);
    [reflexivity | lia | reflexivity | reflexivity].
Defined.

(** X4. Two neighbouring groups are apart (the later one starts after the end
    of the earlier one) exactly when the earlier set has at most one photo
    more than the later set. *)
Theorem groups_apart_iff (photoSets : list PhotoSet) (gs : list Group)
    (i : nat) (set' set : PhotoSet) (g' g : Group) :
  groups photoSets = Some gs ->
  photoSets !! i = Some set' -> photoSets !! S i = Some set ->
  gs !! i = Some g' -> gs !! S i = Some g ->
  end_ g' < start g
  <-> js_length (photos set') < js_length (photos set) + 2.
Proof.
  rewrite groups_layout. intros [= <-] Hset' Hset Hg' Hg.
  rewrite (layout_start_step _ _ _ _ _ Hg' Hg), (layout_end _ _ _ _ Hg').
  rewrite (layout_len _ _ _ _ _ Hg' Hset'), (layout_len _ _ _ _ _ Hg Hset).
  unfold gapBetweenGroups. lia.
Qed.

Lemma groups_apart_iff_witness :
  end_ (mkGroup 0 8 8) < start (mkGroup 2 0 2)
  <-> js_length (photos (Samples.set_of 9))
      < js_length (photos (Samples.set_of 1)) + 2.
Proof.
  apply (groups_apart_iff [Samples.set_of 9; Samples.set_of 1]
           [mkGroup 0 8 8; mkGroup 2 0 2] 0%nat); reflexivity.
Defined.

Lemma layout_last_end_positive (photoSets : list PhotoSet) :
  (forall set, set ∈ photoSets -> 1 <= js_length (photos set)) ->
  (2 <= length photoSets)%nat
  \/ (exists set, photoSets = [set] /\ 2 <= js_length (photos set)) ->
  exists t, (g ← last (layout None photoSets); Some (end_ g)) = Some t
            /\ 0 < t.
Proof.
  intros Hsets Hshape.
  destruct Hshape as [Hlen | [set [-> Hset]]].
  - destruct photoSets as [| first rest] using rev_ind; [cbn in Hlen; lia |].
    clear IHrest. rewrite length_app in Hlen. cbn in Hlen.
    set (n := length rest).
    assert (Hn : (1 <= n)%nat) by (unfold n; lia).
    destruct (lookup_lt_is_Some_2 (layout None (rest ++ [first])) n)
      as [g Hg].
    { rewrite layout_length, length_app. cbn. lia. }
    destruct (lookup_lt_is_Some_2 (layout None (rest ++ [first])) (n - 1))
      as [g' Hg'].
    { rewrite layout_length, length_app. cbn. lia. }
    assert (Hlast : last (layout None (rest ++ [first])) = Some g).
    { rewrite last_lookup, layout_length, length_app. cbn.
      by replace (Init.Nat.pred (length rest + 1)) with n by (unfold n; lia). }
    rewrite Hlast. cbn. exists (end_ g). split; [done |].
    rewrite (layout_end _ _ _ _ Hg).
    assert (Hfirst : (rest ++ [first]) !! n = Some first)
      by (unfold n; apply list_lookup_middle; done).
    rewrite (layout_len _ _ _ _ _ Hg Hfirst).
    assert (1 <= js_length (photos first)).
    { apply Hsets. apply elem_of_app. right. by apply list_elem_of_singleton. }
    replace n with (S (n - 1)) in Hg by lia.
    pose proof (layout_start_step _ _ _ _ _ Hg' Hg) as Hstep.
    assert (0 <= start g').
    { destruct (decide (n - 1 = 0)%nat) as [Hz | Hnz].
      - rewrite Hz in Hg'. destruct rest as [| r rest']; [cbn in Hn; lia |].
        cbn in Hg'. injection Hg' as <-. done.
      - destruct (lookup_lt_is_Some_2 (layout None (rest ++ [first])) 0)
          as [g0 Hg0].
        { rewrite layout_length, length_app. cbn. lia. }
        assert (start g0 < start g')
          by (eapply (layout_start_lt _ _ 0 (n - 1)); [lia | done | done]).
        destruct rest as [| r rest']; [cbn in Hn; lia |].
        cbn in Hg0. injection Hg0 as <-. cbn in *. lia. }
    pose proof (layout_len_lower _ _ _ _ Hg).
    rewrite (layout_len _ _ _ _ _ Hg) in Hstep
      by (replace (S (n - 1)) with n by lia; done).
    unfold gapBetweenGroups in Hstep. lia.
  - cbn. eexists. split; [reflexivity |]. cbn. lia.
Qed.

(** X5. With no empty set, the total is positive unless the input is one set
    of one photo: two sets or more, or one set of two photos or more, give
    a positive total. *)
Theorem total_positive (photoSets : list PhotoSet) :
  (forall set, set ∈ photoSets -> 1 <= js_length (photos set)) ->
  (2 <= length photoSets)%nat
  \/ (exists set, photoSets = [set] /\ 2 <= js_length (photos set)) ->
  exists t, total photoSets = Some t /\ 0 < t.
Proof.
  intros Hsets Hshape. rewrite SceneFacts.total_of_layout.
  by apply layout_last_end_positive.
Qed.

Lemma total_positive_witness :
  exists t, total [Samples.set_of 1; Samples.set_of 1] = Some t /\ 0 < t.
Proof.
  apply total_positive.
  - intros set Hset. unfold js_length.
    repeat (apply elem_of_cons in Hset as [-> | Hset]; [simpl; lia |]).
    by apply elem_of_nil in Hset.
  - left. simpl. lia.
Defined.

End LayoutOrder.

(** ** More on the cards of one set *)

Module CardsMore.
Import Carousel CardView NumberFacts CardsFacts.

Lemma jadd_nan_r (x : JSNum) : jadd x NaN = NaN.
Proof. by destruct x. Qed.

Lemma jmul_nan_l (x : JSNum) : jmul NaN x = NaN.
Proof. by destruct x. Qed.



(** X13. A set without photos renders no card, and its label is placed at NaN
    coordinates (the angle is [0 / 2 / 0]), whatever its start angle and
    length. *)
Theorem empty_set_label_nan (props : CardsProps) :
  Cards_photos props = [] ->
  Cards props = []
  /\ label_position props = (NaN, Fin (5 / 10), NaN).
Proof.
  intros Hempty. unfold Cards, label_position, textPosition, of_Z, js_length.
  rewrite Hempty. cbn [length array_from seq map Z.of_nat].
  split; [reflexivity |]. change (IZR (Z.of_nat 0)) with 0%R.
  rewrite (jdiv_fin 0 2) by lra. rewrite jdiv_by_zero.
  replace (0 / 2)%R with 0%R by lra. rewrite sign_zero. cbn [signed_inf].
  rewrite jmul_nan_l, jadd_nan_r. cbn [jsin jcos]. by rewrite !jmul_nan_l.
Qed.

Lemma empty_set_label_nan_witness :
  Cards (Samples.cards_of 0) = []
  /\ label_position (Samples.cards_of 0) = (NaN, Fin (5 / 10), NaN).
Proof. apply (empty_set_label_nan (Samples.cards_of 0)). reflexivity. Defined.

End CardsMore.

(** ** More on the scene *)

Module SceneMore.
Import Layout Carousel NumberFacts LayoutFacts LayoutSums LayoutMore.
Import LayoutOrder SceneFacts CardsMore.


(** What [Scene] returns, element by element. *)
Lemma Scene_lookup (photoSets : list PhotoSet) (cards : list CardsProps) :
  Scene photoSets = Some cards ->
  exists t,
    total photoSets = Some t
    /\ length cards = length photoSets
    /\ forall (i : nat) (set : PhotoSet),
         photoSets !! i = Some set ->
         exists g,
           layout None photoSets !! i = Some g
           /\ cards !! i
              = Some (mkCardsProps (id set) (set_title set)
                        (pointToRadian t (start g))
                        (pointToRadian t (len g))
                        (Fin 15) (photos set)).
Proof.
  unfold Scene, total. rewrite groups_layout. cbn [mbind option_bind].
  destruct (total_of (layout None photoSets)) as [t |]; [| done].
  cbn [mbind option_bind]. intros Hmap. exists t. split; [done |].
  apply map_from_lookup in Hmap as [Hlen Hget]. split; [done |].
  intros i set Hset. destruct (Hget i set Hset) as [props [Hprops Hchild]].
  rewrite Z.add_0_l in Hchild.
  unfold Scene_child, startOfGroup, lenOfGroup in Hchild.
  rewrite js_get_of_nat in Hchild.
  destruct (layout None photoSets !! i) as [g |]; [| done].
  cbn in Hchild. injection Hchild as <-. by exists g.
Qed.

(** X6. [Scene] renders one [Cards] per set, in the order of the sets, and
    each carries the id, the title and the photos of its set and the
    radius 15. *)
Theorem Scene_one_Cards_per_set (photoSets : list PhotoSet)
    (cards : list CardsProps) :
  Scene photoSets = Some cards ->
  length cards = length photoSets
  /\ forall (i : nat) (set : PhotoSet),
       photoSets !! i = Some set ->
       exists props,
         cards !! i = Some props
         /\ Cards_key props = id set
         /\ Cards_category props = set_title set
         /\ Cards_photos props = photos set
         /\ Cards_radius props = Fin 15.
Proof.
  intros HScene. apply Scene_lookup in HScene as [t [_ [Hlen Hget]]].
  split; [done |]. intros i set Hset.
  destruct (Hget i set Hset) as [g [_ Hprops]].
  eexists. split; [exact Hprops |]. done.
Qed.

Lemma Scene_one_Cards_per_set_witness :
  exists cards,
    Scene [Samples.set_of 2; Samples.set_of 3] = Some cards
    /\ length cards = 2%nat.
Proof.
  destruct (Scene_nonempty [Samples.set_of 2; Samples.set_of 3])
    as [cards Hcards]; [discriminate |].
  exists cards. split; [exact Hcards |].
  exact (proj1 (Scene_one_Cards_per_set _ cards Hcards)).
Defined.

End SceneMore.

Module SceneAngles.
Import Layout Carousel NumberFacts LayoutFacts LayoutSums LayoutMore.
Import LayoutOrder SceneFacts CardsMore SceneMore.





End SceneAngles.

(** ** More on hovering *)

Module HoverMore.
Import Hover HoverRun CardView.

Lemma handle_length (photoSets : list PhotoSet) (ev : PointerEvent)
    (st : State) :
  length (hovered (handle photoSets ev st)) = length (hovered st).
Proof.
  destruct ev as [set i | set i]; cbn [handle];
    destruct (photoSets !! set); cbn; by rewrite ?length_insert.
Qed.

Lemma run_snoc (photoSets : list PhotoSet) (events : list PointerEvent)
    (ev : PointerEvent) (st : State) :
  run photoSets (events ++ [ev]) st
  = handle photoSets ev (run photoSets events st).
Proof. unfold run. by rewrite fold_left_app. Qed.

(** Every [Cards] keeps its own hover state: after any sequence of pointer
    events there is still one entry per set. *)
Lemma run_length (photoSets : list PhotoSet) (events : list PointerEvent) :
  length (hovered (run photoSets events (initial photoSets)))
  = length photoSets.
Proof.
  induction events as [| ev events IH] using rev_ind.
  - cbn. by rewrite length_map.
  - by rewrite run_snoc, handle_length.
Qed.

(** X14. Pointer over a rendered card shows its photo: the preview carries the
    title of [photos[i]], its small url as fallback and its medium url. *)
Theorem pointer_over_previews_photo (photoSets : list PhotoSet) (set : nat)
    (i : Z) (st : State) (photoSet : PhotoSet) (photo : Photo) :
  photoSets !! set = Some photoSet ->
  js_get (photos photoSet) i = Some photo ->
  hoveredPhoto (handle photoSets (PointerOver set i) st) = Object photo
  /\ active_preview (handle photoSets (PointerOver set i) st)
     = Some (mkPreview (title photo) (url (small photo))
               (url (medium photo))).
Proof.
  intros Hset Hphoto. unfold handle. rewrite Hset.
  unfold active_preview, onHoverCard, setHoveredPhoto, photo_at.
  cbn [hoveredPhoto]. by rewrite Hphoto.
Qed.

Lemma pointer_over_previews_photo_witness :
  active_preview
    (handle [Samples.set_of 2] (PointerOver 0%nat 1)
       (initial [Samples.set_of 2]))
  = Some (mkPreview (title Samples.a_photo) (url (small Samples.a_photo))
            (url (medium Samples.a_photo))).
Proof.
  refine (proj2 (pointer_over_previews_photo [Samples.set_of 2] 0%nat 1
                   (initial [Samples.set_of 2]) (Samples.set_of 2)
                   Samples.a_photo _ _)); reflexivity.
Defined.

(** X15. In a state reached from the initial one, pointer over card [i] of a
    set makes that card the only hovered one of its set and the others
    active (scale factor 1.4 for it, 1.25 for them); pointer out of any card
    of the set returns all its cards to the factor 1. *)
Theorem pointer_events_set_card_targets (photoSets : list PhotoSet)
    (events : list PointerEvent) (set : nat) (i j : Z) :
  (set < length photoSets)%nat ->
  let st := run photoSets events (initial photoSets) in
  card_scale_target (handle photoSets (PointerOver set i) st) set j
  = Some (scale_target (i =? j) true)
  /\ card_scale_target (handle photoSets (PointerOut set i) st) set j
     = Some (scale_target false false).
Proof.
  intros Hset st.
  destruct (lookup_lt_is_Some_2 photoSets set Hset) as [photoSet HphotoSet].
  assert (Hslot : (set < length (hovered st))%nat)
    by (unfold st; by rewrite run_length).
  unfold card_scale_target, handle. rewrite HphotoSet.
  cbn [onHoverCard setHoveredPhoto hover hovered].
  by rewrite !list_lookup_insert_eq by done.
Qed.

Lemma pointer_events_set_card_targets_witness :
  card_scale_target
    (handle [Samples.set_of 3] (PointerOver 0%nat 1)
       (run [Samples.set_of 3] [PointerOver 0%nat 2; PointerOut 0%nat 2]
          (initial [Samples.set_of 3])))
    0%nat 1
  = Some (scale_target true true).
Proof.
  refine (proj1 (pointer_events_set_card_targets [Samples.set_of 3]
                   [PointerOver 0%nat 2; PointerOut 0%nat 2] 0%nat 1 1 _)).
  simpl. lia.
Defined.

(** X16. A pointer event of one set leaves the hover state of every other set
    as it was. *)
Theorem pointer_event_other_sets_untouched (photoSets : list PhotoSet)
    (set other : nat) (i : Z) (st : State) :
  other <> set ->
  hovered (handle photoSets (PointerOver set i) st) !! other
  = hovered st !! other
  /\ hovered (handle photoSets (PointerOut set i) st) !! other
     = hovered st !! other.
Proof.
  intros Hne. unfold handle. destruct (photoSets !! set); [| done].
  cbn [onHoverCard setHoveredPhoto hover hovered].
  by rewrite !list_lookup_insert_ne by done.
Qed.

Lemma pointer_event_other_sets_untouched_witness :
  hovered (handle [Samples.set_of 2; Samples.set_of 2] (PointerOver 0%nat 1)
             (initial [Samples.set_of 2; Samples.set_of 2])) !! 1%nat
  = Some None.
Proof.
  refine (proj1 (pointer_event_other_sets_untouched
                   [Samples.set_of 2; Samples.set_of 2] 0%nat 1%nat 1
                   (initial [Samples.set_of 2; Samples.set_of 2]) _)).
  lia.
Defined.

(** X17. The preview follows the last event only: when the pointer enters a card
    of one set and then a leave event of a card of another set arrives, the
    preview is removed although the entered card is still the hovered one
    of its set. *)
Theorem leave_after_enter_removes_preview (photoSets : list PhotoSet)
    (entered left : nat) (i j : Z) (st : State) :
  entered <> left ->
  (entered < length (hovered st))%nat ->
  card_exists photoSets entered i -> card_exists photoSets left j ->
  let st' :=
    handle photoSets (PointerOut left j)
      (handle photoSets (PointerOver entered i) st) in
  active_preview st' = None
  /\ hovered st' !! entered = Some (Some i).
Proof.
  intros Hne Hslot [setE [HsetE _]] [setL [HsetL _]] st'. unfold st', handle.
  rewrite HsetE, HsetL. split; [reflexivity |].
  cbn [onHoverCard setHoveredPhoto hover hovered].
  rewrite list_lookup_insert_ne by done.
  by rewrite list_lookup_insert_eq by done.
Qed.

Lemma leave_after_enter_removes_preview_witness :
  active_preview
    (handle [Samples.set_of 2; Samples.set_of 2] (PointerOut 1%nat 0)
       (handle [Samples.set_of 2; Samples.set_of 2] (PointerOver 0%nat 1)
          (initial [Samples.set_of 2; Samples.set_of 2])))
  = None.
Proof.
  refine (proj1 (leave_after_enter_removes_preview
                   [Samples.set_of 2; Samples.set_of 2] 0%nat 1%nat 1 0
                   (initial [Samples.set_of 2; Samples.set_of 2])
                   _ _ _ _)).
  - lia.
  - simpl. lia.
  - exists (Samples.set_of 2). split; [reflexivity | unfold js_length; simpl; lia].
  - exists (Samples.set_of 2). split; [reflexivity | unfold js_length; simpl; lia].
Defined.



End HoverMore.

(** ** The cards in double precision *)

Module Binary64Facts.
Import Layout Binary64.

(** Evaluates the doubles under [F2R] and the powers of two they bring. *)
Ltac float_values :=
  unfold F2R;
  repeat match goal with
  | |- context [Prim2SF ?x] =>
      let v := eval vm_compute in (Prim2SF x) in change (Prim2SF x) with v
  end;
  unfold SF2R;
  repeat match goal with
  | |- context [0 <=? ?e] =>
      let v := eval vm_compute in (0 <=? e) in change (0 <=? e) with v
  end;
  cbv beta iota zeta;
  repeat match goal with
  | |- context [2 ^ ?e] =>
      let v := eval vm_compute in (2 ^ e) in change (2 ^ e) with v
  end.



End Binary64Facts.

Module Binary64Theorems.
Import Layout Binary64 Binary64Facts.




(** C3, at the sets of 5 photos and of 1 photo.  The groups are
    [{start: 0, len: 4, end: 4}] and [{start: 2, len: 0, end: 2}], the total
    is 2, and the first set gets the angular length [(PI * 2 * 4) / 2], two
    full turns.  Its card 3, one turn [PI * 2] back, lies strictly between
    its cards 0 and 1: around the circle the cards do not follow the order
    of the photos. *)
Theorem C3_cards_wrap_past_full_turn :
  let props :=
    mkCardsProps "72157" "Bordeaux" (pointToRadian 2 0) (pointToRadian 2 4)
      15%float (repeat Samples.a_photo 5) in
  let a := angle (Cards_from props) (Cards_len props) 5 in
  let turn := (Math_PI * 2)%float in
  groups [Samples.set_of 5; Samples.set_of 1]
  = Some [mkGroup 0 4 4; mkGroup 2 0 2]
  /\ Scene [Samples.set_of 5; Samples.set_of 1]
     = Some [props;
             mkCardsProps "72157" "Bordeaux" (pointToRadian 2 2)
               (pointToRadian 2 0) 15%float (repeat Samples.a_photo 1)]
  /\ (F2R (Cards_len props) = 2 * F2R turn)%R
  /\ PrimFloat.is_finite (a 0%Z) = true /\ PrimFloat.is_finite (a 1%Z) = true
  /\ PrimFloat.is_finite (a 3%Z) = true
  /\ (F2R (a 0%Z) < F2R (a 3%Z) - F2R turn < F2R (a 1%Z))%R.
Proof.
  cbv zeta. cbn [Cards_from Cards_len].
  split; [reflexivity |]. split; [reflexivity |].
  split; [float_values; lra |].
  do 3 (split; [vm_compute; reflexivity |]).
  float_values. lra.
Qed.

End Binary64Theorems.

(** ** The scene reads the shared objects and never writes them *)

Module SharedFacts.
Import Layout Shared.
Local Open Scope comp_scope.

Lemma reads_only_pure {A : Type} (h : Heap) (a : A) :
  reads_only h (pure a) (Some a).
Proof. intros log0. exists []. by rewrite app_nil_r. Qed.

Lemma reads_only_lift {A : Type} (h : Heap) (o : option A) :
  reads_only h (lift o) o.
Proof. intros log0. exists []. by rewrite app_nil_r. Qed.

Lemma reads_only_read {A : Type} (h : Heap) (op : Op)
    (f : Heap -> option A) :
  is_read op = true -> reads_only h (read op f) (f h).
Proof.
  intros Hop log0. exists [op]. split; [reflexivity |].
  by apply Forall_singleton.
Qed.

Lemma reads_only_read_at {A : Type} (h : Heap) (op : Op)
    (f : Heap -> option A) (v : option A) :
  is_read op = true -> f h = v -> reads_only h (read op f) v.
Proof. intros Hop <-. by apply reads_only_read. Qed.

Lemma reads_only_bind {A B : Type} (h : Heap) (c : Comp A)
    (k : A -> Comp B) (v : option A) (r : option B) :
  reads_only h c v ->
  (forall a, v = Some a -> reads_only h (k a) r) ->
  (v = None -> r = None) ->
  reads_only h (bind c k) r.
Proof.
  intros Hc Hk Hnone log0. destruct (Hc log0) as [ops1 [Hrun1 Hops1]].
  unfold bind. rewrite Hrun1. destruct v as [a |].
  - destruct (Hk a eq_refl (log0 ++ ops1)) as [ops2 [Hrun2 Hops2]].
    exists (ops1 ++ ops2). rewrite Hrun2, app_assoc.
    split; [reflexivity | by apply Forall_app].
  - exists ops1. by rewrite Hnone.
Qed.

Lemma reads_only_bind_some {A B : Type} (h : Heap) (c : Comp A)
    (k : A -> Comp B) (a : A) (r : option B) :
  reads_only h c (Some a) -> reads_only h (k a) r ->
  reads_only h (bind c k) r.
Proof.
  intros Hc Hk. apply (reads_only_bind h c k (Some a)); [done | | done].
  by intros a' [= <-].
Qed.

(** The write is not a read-only computation. *)
Lemma put_element_writes (v : option unit) :
  ~ reads_only [Samples.set_of 1] (put_element 0 (Samples.set_of 0)) v.
Proof.
  intros Hput. destruct (Hput []) as [ops [Hrun _]].
  unfold put_element in Hrun. cbn in Hrun.
  injection Hrun as _ Hheap _. discriminate Hheap.
Qed.

Section OnHeap.
Variable h : Heap.

Lemma get_length_reads : reads_only h get_length (Some (js_length h)).
Proof. by apply reads_only_read_at. Qed.

Lemma get_element_reads (k : nat) (x : PhotoSet) :
  h !! k = Some x -> reads_only h (get_element (Z.of_nat k)) (Some k).
Proof.
  intros Hx. unfold get_element. apply reads_only_read_at; [done |].
  cbn beta. by rewrite js_get_of_nat, Hx, Nat2Z.id.
Qed.

Lemma get_field_reads {A : Type} (op : Op) (field : PhotoSet -> A)
    (k : nat) (x : PhotoSet) :
  is_read op = true -> h !! k = Some x ->
  reads_only h (read op (fun h0 => s ← h0 !! k; Some (field s)))
    (Some (field x)).
Proof.
  intros Hop Hx. apply reads_only_read_at; [done |]. cbn beta.
  by rewrite Hx.
Qed.

Lemma drop_cons_inv {A : Type} (l rest : list A) (k : nat) (x : A) :
  drop k l = x :: rest -> l !! k = Some x /\ drop (S k) l = rest.
Proof.
  intros Hdrop. split.
  - rewrite <- (Nat.add_0_r k), <- lookup_drop, Hdrop. reflexivity.
  - replace (S k) with (k + 1)%nat by lia.
    rewrite <- drop_drop, Hdrop. reflexivity.
Qed.

Lemma reduce_loop_reads {B : Type} (fM : B -> Ref -> Z -> Comp B)
    (f : B -> PhotoSet -> Z -> option B) :
  (forall acc k x,
     h !! k = Some x ->
     reads_only h (fM acc k (Z.of_nat k)) (f acc x (Z.of_nat k))) ->
  forall (rest : list PhotoSet) (k : nat) (acc : B),
    drop k h = rest ->
    reads_only h (reduce_loop fM (length rest) (Z.of_nat k) acc)
      (reduce_from f rest (Z.of_nat k) acc).
Proof.
  intros Hf. induction rest as [| x rest IH]; intros k acc Hdrop.
  - apply reads_only_pure.
  - apply drop_cons_inv in Hdrop as [Hx Hrest].
    cbn [length reduce_loop reduce_from].
    eapply reads_only_bind_some; [by eapply get_element_reads |].
    eapply reads_only_bind; [by apply Hf | |].
    + intros acc' ->. cbn [mbind option_bind].
      replace (Z.of_nat k + 1) with (Z.of_nat (S k)) by lia. by apply IH.
    + by intros ->.
Qed.

Lemma map_loop_reads {B : Type} (fM : Ref -> Z -> Comp B)
    (f : PhotoSet -> Z -> option B) :
  (forall k x,
     h !! k = Some x ->
     reads_only h (fM k (Z.of_nat k)) (f x (Z.of_nat k))) ->
  forall (rest : list PhotoSet) (k : nat),
    drop k h = rest ->
    reads_only h (map_loop fM (length rest) (Z.of_nat k))
      (map_from f rest (Z.of_nat k)).
Proof.
  intros Hf. induction rest as [| x rest IH]; intros k Hdrop.
  - apply reads_only_pure.
  - apply drop_cons_inv in Hdrop as [Hx Hrest].
    cbn [length map_loop map_from].
    eapply reads_only_bind_some; [by eapply get_element_reads |].
    eapply reads_only_bind; [by apply Hf | |].
    + intros y ->. cbn [mbind option_bind].
      replace (Z.of_nat k + 1) with (Z.of_nat (S k)) by lia.
      eapply reads_only_bind; [by apply IH | |].
      * intros ys ->. apply reads_only_pure.
      * by intros ->.
    + by intros ->.
Qed.

Lemma from_loop_reads {B : Type} (fM : Z -> Comp B) (f : Z -> B) :
  (forall i : nat, reads_only h (fM (Z.of_nat i)) (Some (f (Z.of_nat i)))) ->
  forall n k : nat,
    reads_only h (from_loop fM n (Z.of_nat k))
      (Some (map (fun i : nat => f (Z.of_nat i)) (seq k n))).
Proof.
  intros Hf. induction n as [| n IH]; intros k.
  - apply reads_only_pure.
  - cbn [from_loop seq map].
    eapply reads_only_bind_some; [apply Hf |].
    replace (Z.of_nat k + 1) with (Z.of_nat (S k)) by lia.
    eapply reads_only_bind_some; [apply IH |]. apply reads_only_pure.
Qed.

Lemma groups_stepM_reads (acc : list Group) (k : nat) (x : PhotoSet)
    (index : Z) :
  h !! k = Some x ->
  reads_only h (groups_stepM acc k index) (groups_step acc x index).
Proof.
  intros Hx. unfold groups_stepM, groups_step.
  eapply reads_only_bind_some.
  { by apply (get_field_reads (GetPhotosLength k)
                (fun s => js_length (photos s))). }
  eapply reads_only_bind; [apply reads_only_lift | |].
  - intros start0 ->. apply reads_only_pure.
  - by intros ->.
Qed.

Section Trigonometry.
Variables Math_sin Math_cos : float -> float.

Lemma CardsM_reads (key category : string) (from len radius : float)
    (k : nat) (x : PhotoSet) :
  h !! k = Some x ->
  reads_only h (CardsM Math_sin Math_cos from len radius k)
    (Some (Binary64.Cards Math_sin Math_cos
             (Binary64.mkCardsProps key category from len radius
                (photos x)))).
Proof.
  intros Hx. unfold CardsM.
  eapply reads_only_bind_some.
  { by apply (get_field_reads (GetPhotosLength k)
                (fun s => js_length (photos s))). }
  replace (Z.to_nat (js_length (photos x))) with (length (photos x))
    by (unfold js_length; lia).
  refine (from_loop_reads _
            (fun i => Binary64.card_of Math_sin Math_cos from len radius
                        (js_length (photos x)) i (js_get (photos x) i))
            _ (length (photos x)) 0%nat).
  intros i. eapply reads_only_bind_some; [| apply reads_only_pure].
  by apply (get_field_reads (GetPhoto k (Z.of_nat i))
              (fun s => js_get (photos s) (Z.of_nat i))).
Qed.

Lemma Scene_childM_reads (gs : list Group) (t : Z) (k : nat)
    (x : PhotoSet) (index : Z) :
  h !! k = Some x ->
  reads_only h (Scene_childM Math_sin Math_cos gs t k index)
    (props ← Binary64.Scene_child gs t x index;
     Some (props, Binary64.Cards Math_sin Math_cos props)).
Proof.
  intros Hx. unfold Scene_childM, Binary64.Scene_child.
  eapply reads_only_bind_some; [by apply (get_field_reads (GetId k) id) |].
  eapply reads_only_bind_some;
    [by apply (get_field_reads (GetTitle k) set_title) |].
  eapply reads_only_bind; [apply reads_only_lift | | by intros ->].
  intros from ->. cbn [mbind option_bind].
  eapply reads_only_bind; [apply reads_only_lift | | by intros ->].
  intros len ->. cbn [mbind option_bind].
  eapply reads_only_bind_some;
    [by apply (get_field_reads (GetPhotos k) photos) |].
  eapply reads_only_bind_some; [by eapply CardsM_reads |].
  apply reads_only_pure.
Qed.

Lemma map_from_fmap {A B C : Type} (f : A -> Z -> option B) (g : B -> C)
    (arr : list A) (index : Z) :
  map_from (fun x i => y ← f x i; Some (g y)) arr index
  = ys ← map_from f arr index; Some (map g ys).
Proof.
  revert index. induction arr as [| x rest IH]; intros index; [reflexivity |].
  cbn [map_from]. destruct (f x index) as [y |]; [| reflexivity]. cbn.
  rewrite IH. by destruct (map_from f rest (index + 1)).
Qed.

Lemma SceneM_reads :
  reads_only h (SceneM Math_sin Math_cos)
    (cards ← Binary64.Scene h;
     Some (map (fun props =>
                  (props, Binary64.Cards Math_sin Math_cos props)) cards)).
Proof.
  unfold SceneM, Binary64.Scene, photoSets_reduce, photoSets_map.
  eapply reads_only_bind.
  { eapply reads_only_bind_some; [apply get_length_reads |].
    unfold js_length. rewrite Nat2Z.id.
    apply (reduce_loop_reads groups_stepM groups_step) with (k := 0%nat);
      [| done].
    intros acc k x Hx. by apply groups_stepM_reads. }
  2:{ intros Hnone. change (groups h = None) in Hnone. by rewrite Hnone. }
  intros gs Hgs. change (groups h = Some gs) in Hgs. rewrite Hgs.
  cbn [mbind option_bind].
  eapply reads_only_bind; [apply reads_only_lift | | by intros ->].
  intros t ->. cbn [mbind option_bind].
  eapply reads_only_bind_some; [apply get_length_reads |].
  unfold js_length, js_map. rewrite Nat2Z.id, <- map_from_fmap.
  apply (map_loop_reads _
           (fun x i =>
              props ← Binary64.Scene_child gs t x i;
              Some (props, Binary64.Cards Math_sin Math_cos props)))
    with (k := 0%nat); [| done].
  intros k x Hx. by apply Scene_childM_reads.
Qed.

End Trigonometry.
End OnHeap.

End SharedFacts.

Module SharedTheorems.
Import Layout Shared SharedFacts.

(** C7. The scene does not mutate its photo sets.  Run on the shared array,
    with any accesses already logged, the computation of the groups, the
    total and the cards of every set makes read accesses only, leaves the
    array (every set's id, title and photos) as it was, and returns what
    the layout in double precision gives for that array. *)
Theorem C7_scene_only_reads_photoSets (Math_sin Math_cos : float -> float)
    (photoSets : Heap) (log0 : list Op) :
  exists ops,
    SceneM Math_sin Math_cos (mkMemory photoSets log0)
    = (cards ← Binary64.Scene photoSets;
       Some (map (fun props =>
                    (props, Binary64.Cards Math_sin Math_cos props)) cards),
       mkMemory photoSets (log0 ++ ops))
    /\ Forall (fun op => is_read op = true) ops.
Proof. apply SceneM_reads. Qed.

End SharedTheorems.
